(** * The msw fixture store of rocket-rental (mocks/utils)

    A shallow embedding of [updateFixture], [readFixture] and the three
    [required*] assertion helpers.

    The store is one JSON file, [msw.local.json], shared by every caller
    of the module, one module-level promise [clearingFixture] and one
    module-level variable [updating].  The two exported functions are
    [async]: between two of their [await]s any other task of the event
    loop may run.  The embedding therefore is a transition system: a
    [state] holds the file, the module-level variables and one entry per
    call in progress, and an [event] lets one task run from the [await]
    it is suspended at to its next one. *)

From stdpp Require Import gmap strings list fin_maps pretty.
From Stdlib Require Import ZArith.

(** ** Values *)

(** JSON values, as [JSON.parse] produces them.  Numbers are kept as
    integers: nothing below looks at a number except to ask whether it
    is zero. *)
#[warnings="-register-all"]
Inductive json : Type :=
| JNull
| JBool (b : bool)
| JNum (n : Z)
| JStr (s : string)
| JArr (l : list json)
| JObj (m : gmap string json).

(** What a [throw] or a rejected promise carries. *)
Inductive error : Type :=
| SystemError (code : string)  (* rejection of an [fs.promises] call *)
| SyntaxError                  (* [JSON.parse] on a text that is not JSON *)
| TypeError (msg : string)
| Error (msg : string).        (* [new Error(msg)] *)

(** The text of the file, kept up to [JSON.parse]: [JsonText v] is a text
    that [JSON.parse] maps to [v] (so it is what
    [JSON.stringify (v, null, 2)] writes), [Unparsable raw] a text on
    which [JSON.parse] throws. *)
Inductive contents : Type :=
| Unparsable (raw : string)
| JsonText (v : json).

(** The literal ['{}'] of lines 21 and 69. *)
Definition empty_object_text : contents := JsonText (JObj ∅).

(** [{ ...v }]: the own enumerable properties of [v].  An object spreads
    to its entries, an array and a string to their elements under their
    decimal indices, every other value to nothing. *)
Definition indexed {A} (f : A → json) (l : list A) : gmap string json :=
  list_to_map (imap (λ i x, (pretty i, f x)) l).

Definition spread (v : json) : gmap string json :=
  match v with
  | JObj m => m
  | JArr l => indexed id l
  | JStr s => indexed (λ c, JStr (String c "")) (String.list_ascii_of_string s)
  | JNull | JBool _ | JNum _ => ∅
  end.

(** [{ ...mswData, ...updates }] of line 48: the keys of [updates] win. *)
Definition merge_updates (mswData : json) (updates : gmap string json)
  : gmap string json :=
  updates ∪ spread mswData.

(** ** Promises, tasks and the state of the module *)

Inductive promise : Type :=
| Pending
| Fulfilled
| Rejected (e : error).

(** How a call ended: the promise an [async] function returned is
    fulfilled with a value ([None] is [undefined]) or rejected. *)
Inductive outcome : Type :=
| Returned (v : option json)
| Thrown (e : error).

Inductive call : Type :=
| UpdateFixture (updates : gmap string json)
| ReadFixture.

(** The [await] a task is suspended at.  [readFixture] runs either on its
    own or inside [updateFixture] (line 45), so its three [await]s serve
    both kinds of call. *)
Inductive pc : Type :=
| AwaitUpdating (d : nat)                    (* line 40 *)
| AwaitClearing                              (* line 59 *)
| AwaitReadFile                              (* line 62 *)
| AwaitReset                                 (* line 69 *)
| AwaitWriteFile (doc : gmap string json)    (* line 46 *)
| Settled (r : outcome).

Record task : Type := Task { task_call : call; task_pc : pc }.

Record state : Type := State {
  file : option contents;     (* msw.local.json; [None]: no such file *)
  clearingFixture : promise;  (* line 21 *)
  updating : option nat;      (* line 36: the deferred in the slot *)
  deferreds : list promise;   (* every [deferred()] made so far *)
  tasks : list task;          (* every call made so far *)
  console : list error        (* what line 65 has logged *)
}.

Definition set_file (f : option contents) (st : state) : state :=
  State f (clearingFixture st) (updating st) (deferreds st) (tasks st)
        (console st).
Definition set_clearingFixture (p : promise) (st : state) : state :=
  State (file st) p (updating st) (deferreds st) (tasks st) (console st).
Definition set_updating (u : option nat) (st : state) : state :=
  State (file st) (clearingFixture st) u (deferreds st) (tasks st)
        (console st).
Definition set_deferreds (ds : list promise) (st : state) : state :=
  State (file st) (clearingFixture st) (updating st) ds (tasks st)
        (console st).
Definition set_tasks (ts : list task) (st : state) : state :=
  State (file st) (clearingFixture st) (updating st) (deferreds st) ts
        (console st).
Definition set_console (c : list error) (st : state) : state :=
  State (file st) (clearingFixture st) (updating st) (deferreds st)
        (tasks st) c.

(** Task [t] moves to [p]. *)
Definition goto (t : nat) (p : pc) (st : state) : state :=
  match tasks st !! t with
  | Some tk => set_tasks (<[t := Task (task_call tk) p]> (tasks st)) st
  | None => st
  end.

(** A new task, suspended at [p].  Its index is the number of calls made
    before it. *)
Definition spawn (c : call) (p : pc) (st : state) : state :=
  set_tasks (tasks st ++ [Task c p]) st.

(** The module is loaded: line 21 has issued its write, which is not yet
    complete, and line 36 has emptied the slot.  [f] is what the disk
    holds at that moment. *)
Definition boot (f : option contents) : state :=
  State f Pending None [] [] [].

(** ** [deferred] (lines 23-34) *)

(** [deferred()] makes a pending promise; the result names it. *)
Definition deferred (st : state) : nat * state :=
  (length (deferreds st), set_deferreds (deferreds st ++ [Pending]) st).

(** [def.resolve] and [def.reject]: they settle a pending promise and do
    nothing to a settled one. *)
Definition settle (d : nat) (p : promise) (st : state) : state :=
  match deferreds st !! d with
  | Some Pending => set_deferreds (<[d := p]> (deferreds st)) st
  | _ => st
  end.

(** ** [updateFixture] (lines 38-56) *)

Definition null_deref (member : string) : error :=
  TypeError ("Cannot read properties of null (reading '" +:+ member +:+ "')").

(** Lines 51-55, entered with [error].  [updating.reject] is a member
    access on the variable as it is now: on [null] it throws, line 54 still
    runs, and the call rejects with that [TypeError]; otherwise the error
    goes to the deferred and the call returns. *)
Definition catch_block (error : error) (st : state) : state * outcome :=
  match updating st with
  | Some d => (set_updating None (settle d (Rejected error) st),
               Returned None)
  | None => (set_updating None st, Thrown (null_deref "reject"))
  end.

(** Lines 50-55, reached when the write of line 46 is done. *)
Definition try_end (st : state) : state * outcome :=
  match updating st with
  | Some d => (set_updating None (settle d Fulfilled st), Returned None)
  | None => catch_block (null_deref "resolve") st
  end.

Definition finish (t : nat) (r : state * outcome) : state :=
  goto t (Settled r.2) r.1.

(** Lines 38-45, up to the first [await]: a caller that finds the slot
    occupied awaits the occupant's promise, a caller that finds it empty
    puts a new deferred in it and enters [readFixture], which suspends
    at line 59. *)
Definition updateFixture (updates : gmap string json) (st : state) : state :=
  match updating st with
  | Some d => spawn (UpdateFixture updates) (AwaitUpdating d) st
  | None =>
      let (d, st) := deferred st in
      spawn (UpdateFixture updates) AwaitClearing (set_updating (Some d) st)
  end.

(** ** [readFixture] (lines 58-72) *)

Definition readFixture (st : state) : state := spawn ReadFixture AwaitClearing st.

(** [readFixture] returns [mswData] to its caller: a direct caller gets
    it, [updateFixture] goes on to issue the write of line 46.  Resuming
    from [await readFixture()] (line 45) reads no shared variable, so it
    is one move with the return. *)
Definition readFixture_returns (t : nat) (c : call) (mswData : json)
  (st : state) : state :=
  match c with
  | ReadFixture => goto t (Settled (Returned (Some mswData))) st
  | UpdateFixture updates =>
      goto t (AwaitWriteFile (merge_updates mswData updates)) st
  end.

(** [readFixture] throws: inside [updateFixture] that is caught at
    line 51. *)
Definition readFixture_throws (t : nat) (c : call) (e : error)
  (st : state) : state :=
  match c with
  | ReadFixture => goto t (Settled (Thrown e)) st
  | UpdateFixture _ => finish t (catch_block e st)
  end.

(** Lines 62-63: what the [try] block yields when [readFile] completes
    with [err] on the file [f]. *)
Definition read_and_parse (f : option contents) (err : option error)
  : error + json :=
  match err, f with
  | Some e, _ => inl e
  | None, None => inl (SystemError "ENOENT")
  | None, Some (Unparsable _) => inl SyntaxError
  | None, Some (JsonText v) => inr v
  end.

(** ** The event loop *)

Inductive event : Type :=
| Call (c : call)                     (* somebody calls an exported function *)
| ClearingDone (err : option error)   (* the write of line 21 completes *)
| Resume (t : nat)                    (* the promise task [t] awaits is settled *)
| IoDone (t : nat) (err : option error). (* the [fs] call task [t] awaits completes *)

(** One event.  [None]: the event cannot happen in this state.  A read
    sees the file as it is when the read completes, a write replaces it
    when the write completes, and a write that fails leaves the file as
    it was. *)
Definition step (ev : event) (st : state) : option state :=
  match ev with
  | Call (UpdateFixture updates) => Some (updateFixture updates st)
  | Call ReadFixture => Some (readFixture st)
  | ClearingDone err =>
      match clearingFixture st, err with
      | Pending, None =>
          Some (set_clearingFixture Fulfilled
                  (set_file (Some empty_object_text) st))
      | Pending, Some e => Some (set_clearingFixture (Rejected e) st)
      | _, _ => None
      end
  | Resume t =>
      match tasks st !! t with
      | Some (Task c (AwaitUpdating d)) =>
          match deferreds st !! d with
          | Some Fulfilled => Some (goto t AwaitClearing st)
          | Some (Rejected e) => Some (goto t (Settled (Thrown e)) st)
          | _ => None
          end
      | Some (Task c AwaitClearing) =>
          match clearingFixture st with
          | Fulfilled => Some (goto t AwaitReadFile st)
          | Rejected e => Some (readFixture_throws t c e st)
          | Pending => None
          end
      | _ => None
      end
  | IoDone t err =>
      match tasks st !! t with
      | Some (Task c AwaitReadFile) =>
          match read_and_parse (file st) err with
          | inr mswData => Some (readFixture_returns t c mswData st)
          | inl e =>
              Some (goto t AwaitReset (set_console (console st ++ [e]) st))
          end
      | Some (Task c AwaitReset) =>
          match err with
          | None =>
              Some (readFixture_returns t c (JObj ∅)
                      (set_file (Some empty_object_text) st))
          | Some e => Some (readFixture_throws t c e st)
          end
      | Some (Task c (AwaitWriteFile doc)) =>
          match err with
          | None =>
              Some (finish t
                      (try_end (set_file (Some (JsonText (JObj doc))) st)))
          | Some e => Some (finish t (catch_block e st))
          end
      | _ => None
      end
  end.

(** A schedule: the events of a run, in the order they happen. *)
Fixpoint exec (evs : list event) (st : state) : option state :=
  match evs with
  | [] => Some st
  | ev :: evs =>
      match step ev st with
      | Some st => exec evs st
      | None => None
      end
  end.

(** The outcome of call [t], once it has one. *)
Definition outcome_of (st : state) (t : nat) : option outcome :=
  match tasks st !! t with
  | Some (Task _ (Settled r)) => Some r
  | _ => None
  end.

(** ** What the claims speak of *)

(** An [updateFixture] call is inside its read-modify-write cycle from
    the moment it enters the [try] of line 44 until line 54 has run. *)
Definition in_cycle (tk : task) : bool :=
  match tk with
  | Task (UpdateFixture _) (AwaitClearing | AwaitReadFile | AwaitReset
                            | AwaitWriteFile _) => true
  | _ => false
  end.

(** The number of cycles under way. *)
Definition cycles (st : state) : nat := length (filter in_cycle (tasks st)).

(** The pending update tokens: the deferreds nobody has settled yet. *)
Definition is_pending (p : promise) : bool :=
  match p with Pending => true | _ => false end.

Definition pending_tokens (st : state) : nat :=
  length (filter is_pending (deferreds st)).

(** A task is past line 59 of [readFixture]: it has issued, or is about to
    see the result of, an [fs] call on the file. *)
Definition past_clearing (p : pc) : bool :=
  match p with
  | AwaitReadFile | AwaitReset | AwaitWriteFile _ => true
  | AwaitUpdating _ | AwaitClearing | Settled _ => false
  end.

(** The patches applied one after the other to [doc], first patch first. *)
Definition apply_patches (patches : list (gmap string json))
  (doc : gmap string json) : gmap string json :=
  foldl (λ doc updates, merge_updates (JObj doc) updates) doc patches.

Definition is_object (v : json) : bool :=
  match v with JObj _ => true | _ => false end.

(** ** States and documents the examples use *)

Definition doc_a1 : gmap string json := {[ "a" := JNum 1 ]}.
Definition doc_b2 : gmap string json := {[ "b" := JNum 2 ]}.
Definition doc_c3 : gmap string json := {[ "c" := JNum 3 ]}.

(** A state in which the start-up write is done, the file holds [f] and
    nobody has called anything yet. *)
Definition idle (f : option contents) : state :=
  State f Fulfilled None [] [] [].

(** Two calls issued back to back; every [fs] call succeeds. *)
Definition two_calls : list event :=
  [ClearingDone None;
   Call (UpdateFixture doc_a1); Call (UpdateFixture doc_b2);
   Resume 0; IoDone 0 None; IoDone 0 None;
   Resume 1; Resume 1; IoDone 1 None; IoDone 1 None].

(** Three calls issued back to back; every [fs] call succeeds.  The
    second and the third call both wait for the first one; its completion
    releases both. *)
Definition three_calls : list event :=
  [ClearingDone None;
   Call (UpdateFixture doc_a1); Call (UpdateFixture doc_b2);
   Call (UpdateFixture doc_c3);
   Resume 0; IoDone 0 None; IoDone 0 None;
   Resume 1; Resume 2; Resume 1; Resume 2;
   IoDone 1 None; IoDone 2 None;
   IoDone 1 None; IoDone 2 None].

(** Two calls issued back to back, and a third one made while the
    second is in its cycle. *)
Definition late_third_call : list event :=
  [ClearingDone None;
   Call (UpdateFixture doc_a1); Call (UpdateFixture doc_b2);
   Resume 0; IoDone 0 None; IoDone 0 None;
   Resume 1;
   Call (UpdateFixture doc_c3)].

(** ** Invariants of the runs *)

(** No task gets past line 59 before the start-up write is done. *)
Definition clearing_respected (st : state) : Prop :=
  ∀ t c p, tasks st !! t = Some (Task c p) → past_clearing p = true →
           clearingFixture st = Fulfilled.

(** A deferred that is still pending is the one in the slot. *)
Definition token_in_slot (st : state) : Prop :=
  ∀ d, deferreds st !! d = Some Pending → updating st = Some d.

(** ** The assertion helpers (lines 74-110) *)

(** [JSON.stringify (value, null, space)] belongs to the runtime; the
    helpers only paste its result into a message.  [None] is a call
    without the [space] argument. *)
Class JSON := { JSON_stringify : json → option nat → string }.

(** A [URLSearchParams] is the list of its name-value pairs, in order;
    a name may occur more than once.  [get] returns the first value under
    the name, or [null]. *)
Definition URLSearchParams_get (params : list (string * string))
  (name : string) : option string :=
  snd <$> head (filter (λ kv, kv.1 = name) params).

(** A [Headers] is its header list, and the names asked for are field
    names the runtime accepts.  Names are matched byte-lowercased; [get]
    joins the values under the name with [", "], or returns [null] when
    there is none. *)
Definition lower (c : Ascii.ascii) : Ascii.ascii :=
  let n := Ascii.nat_of_ascii c in
  if (65 <=? n) && (n <=? 90) then Ascii.ascii_of_nat (n + 32) else c.

Fixpoint lowercase (s : string) : string :=
  match s with
  | EmptyString => EmptyString
  | String c s => String (lower c) (lowercase s)
  end.

Definition Headers_values (headers : list (string * string))
  (name : string) : list string :=
  snd <$> filter (λ kv, lowercase kv.1 = lowercase name) headers.

Definition Headers_get (headers : list (string * string)) (name : string)
  : option string :=
  match Headers_values headers name with
  | [] => None
  | values => Some (String.concat ", " values)
  end.

(** What [headers.entries()] yields: each name in lower case with the
    joined value.  The runtime yields them sorted and once per name;
    [Object.fromEntries] is indifferent to both. *)
Definition Headers_entries (headers : list (string * string))
  : list (string * string) :=
  (λ kv, (lowercase kv.1, String.concat ", " (Headers_values headers kv.1)))
    <$> headers.

(** [Object.fromEntries]: a later pair overwrites an earlier one. *)
Definition Object_fromEntries (entries : list (string * string)) : json :=
  JObj (foldl (λ m kv, <[kv.1 := JStr kv.2]> m) ∅ entries).

(** [!value] is false: for the [string | null] that a [get] returns, and
    for the value of a property ([None] is [undefined]). *)
Definition truthy_string (value : option string) : bool :=
  match value with
  | None | Some EmptyString => false
  | Some (String _ _) => true
  end.

Definition truthy (value : option json) : bool :=
  match value with
  | None | Some JNull | Some (JBool false) | Some (JNum 0)
  | Some (JStr EmptyString) => false
  | Some _ => true
  end.

Definition dquote : string := String (Ascii.ascii_of_nat 34) EmptyString.

(** The three template literals of lines 82, 95 and 107. *)
Definition not_found (kind name dump : string) : string :=
  (kind +:+ " " +:+ dquote +:+ name +:+ dquote
     +:+ " required, but not found in ") +:+ dump.

Definition requiredParam `{JSON} (params : list (string * string))
  (param : string) : outcome :=
  if negb (truthy_string (URLSearchParams_get params param)) then
    let paramsString := JSON_stringify (Object_fromEntries params) (Some 2) in
    Thrown (Error (not_found "Param" param paramsString))
  else Returned None.

Definition requiredHeader `{JSON} (headers : list (string * string))
  (header : string) : outcome :=
  if negb (truthy_string (Headers_get headers header)) then
    let headersString :=
      JSON_stringify (Object_fromEntries (Headers_entries headers)) (Some 2) in
    Thrown (Error (not_found "Header" header headersString))
  else Returned None.

(** A plain object is the map of its own properties; [object[property]]
    is [undefined] when there is none. *)
Definition requiredProperty `{JSON} (object : gmap string json)
  (property : string) : outcome :=
  if negb (truthy (object !! property)) then
    let objectString := JSON_stringify (JObj object) None in
    Thrown (Error (not_found "Property" property objectString))
  else Returned None.

(** [r] is a [throw] of an [Error] whose message has [dump] in it. *)
Definition raises_with (dump : string) (r : outcome) : Prop :=
  ∃ pre post, r = Thrown (Error (pre +:+ dump +:+ post)).

(** ** Calls that do not overlap *)

(** One [updateFixture] call, the [t]-th call made, run from its call to
    the end of its cycle with nothing in between; its read and its write
    succeed. *)
Definition updateFixture_alone (t : nat) (updates : gmap string json)
  : list event :=
  [Call (UpdateFixture updates); Resume t; IoDone t None; IoDone t None].

(** The calls [updateFixture patch] for each patch of the list, each one
    made when the one before has finished.  [t] is the number of calls
    made before the first one. *)
Fixpoint sequential (patches : list (gmap string json)) (t : nat)
  : list event :=
  match patches with
  | [] => []
  | updates :: patches =>
      updateFixture_alone t updates ++ sequential patches (S t)
  end.

(** What the last patch that has the key [k] gives it. *)
Definition last_write (k : string) (patches : list (gmap string json))
  : option json :=
  foldl (λ acc updates,
           match updates !! k with Some v => Some v | None => acc end)
        None patches.

(** One [readFixture] call, the [t]-th call made, whose read succeeds. *)
Definition readFixture_alone (t : nat) : list event :=
  [Call ReadFixture; Resume t; IoDone t None].

(** ** More invariants of the runs *)

(** The deferred in the slot is pending. *)
Definition slot_is_pending (st : state) : Prop :=
  ∀ d, updating st = Some d → deferreds st !! d = Some Pending.

(** Once the start-up write is done the file holds a JSON object. *)
Definition holds_object (st : state) : Prop :=
  clearingFixture st = Fulfilled →
  ∃ m, file st = Some (JsonText (JObj m)).

(** Until the start-up write is done nobody touches the file of
    [boot f], and a [readFixture] call is waiting at line 59 or has
    rejected with the error of the start-up write. *)
Definition waiting_for_clearing (f : option contents) (st : state) : Prop :=
  clearingFixture st ≠ Fulfilled →
  file st = f ∧ console st = [] ∧
  (∀ t c p, tasks st !! t = Some (Task c p) → past_clearing p = false) ∧
  (∀ t p, tasks st !! t = Some (Task ReadFixture p) →
     p = AwaitClearing ∨
     ∃ e, p = Settled (Thrown e) ∧ clearingFixture st = Rejected e).

(** A direct [readFixture] call is at one of the [await]s of
    [readFixture], or has settled. *)
Definition readFixture_pc (p : pc) : bool :=
  match p with
  | AwaitClearing | AwaitReadFile | AwaitReset | Settled _ => true
  | AwaitUpdating _ | AwaitWriteFile _ => false
  end.

Definition reads_stay_in_readFixture (st : state) : Prop :=
  ∀ t p, tasks st !! t = Some (Task ReadFixture p) → readFixture_pc p = true.

(** ** [isConnectedToTheInternet] (lines 5-16) *)

(** A call is waiting for [dns.lookupService] to call back, or has
    returned. *)
Inductive net_pc : Type :=
| AwaitLookup
| NetReturned (b : bool).

Record net : Type := Net {
  connected : option bool;  (* line 5; [None] is [null] *)
  lookups : nat;            (* how many times line 10 has run *)
  net_calls : list net_pc   (* every call made so far *)
}.

(** The module is loaded. *)
Definition net_boot : net := Net None 0 [].

(** Lines 7-16 up to the [await]: with nothing cached the call starts a
    lookup and suspends, otherwise it returns what is cached. *)
Definition isConnectedToTheInternet (st : net) : net :=
  match connected st with
  | None => Net None (S (lookups st)) (net_calls st ++ [AwaitLookup])
  | Some b => Net (Some b) (lookups st) (net_calls st ++ [NetReturned b])
  end.

(** [!err] of line 11. *)
Definition no_error (err : option error) : bool :=
  match err with None => true | Some _ => false end.

Inductive net_event : Type :=
| NetCall                                    (* somebody calls the function *)
| LookupDone (t : nat) (err : option error). (* the lookup of call [t] calls back *)

(** The callback resolves the promise with [!err]; the call stores that
    in [connected] and returns it (lines 9-15). *)
Definition net_step (ev : net_event) (st : net) : option net :=
  match ev with
  | NetCall => Some (isConnectedToTheInternet st)
  | LookupDone t err =>
      match net_calls st !! t with
      | Some AwaitLookup =>
          Some (Net (Some (no_error err)) (lookups st)
                  (<[t := NetReturned (no_error err)]> (net_calls st)))
      | _ => None
      end
  end.

Fixpoint net_exec (evs : list net_event) (st : net) : option net :=
  match evs with
  | [] => Some st
  | ev :: evs =>
      match net_step ev st with
      | Some st => net_exec evs st
      | None => None
      end
  end.

(** ** The [meta] of the login route (src/unnamed/part_000, lines 33-40) *)

(** A match of the route tree: the id of its route and the meta
    descriptors it contributed, if any.  A descriptor is a plain
    object. *)
Record route_match : Type := RouteMatch {
  route_id : string;
  match_meta : option (list (gmap string json))
}.

Definition login_title : gmap string json :=
  {[ "title" := JStr "Login to Rocket Rental" ]}.

(** ['title' in meta]. *)
Definition has_title (descriptor : gmap string json) : bool :=
  bool_decide (is_Some (descriptor !! "title")).

(** [matches.find (match => match.route.id === 'root')]. *)
Definition rootModule (matches : list route_match) : option route_match :=
  head (filter (λ m, route_id m = "root") matches).

Definition meta (matches : list route_match) : list (gmap string json) :=
  filter (λ descriptor, negb (has_title descriptor))
         (default [] (rootModule matches ≫= match_meta))
    ++ [login_title].

(** * Properties *)

(** ** Bookkeeping *)

Lemma lookup_snoc {A} (l : list A) (x : A) : (l ++ [x]) !! length l = Some x.
Proof. by apply list_lookup_middle. Qed.

Lemma insert_snoc {A} (l : list A) (x y : A) :
  <[length l := y]> (l ++ [x]) = l ++ [y].
Proof. rewrite insert_app_r_alt by lia. by rewrite Nat.sub_diag. Qed.

(** Runs a schedule on a state whose fields are explicit. *)
Ltac run :=
  repeat (progress (
    cbn [exec file clearingFixture updating deferreds tasks console
         task_call task_pc fst snd];
    unfold step, updateFixture, readFixture, deferred, spawn, goto, finish,
      try_end, catch_block, settle, readFixture_returns, readFixture_throws,
      set_file, set_tasks, set_updating, set_deferreds, set_console,
      set_clearingFixture, outcome_of;
    rewrite ?lookup_snoc, ?insert_snoc)).

Section goto.
Context (t : nat) (p : pc) (st : state).

Lemma goto_file : file (goto t p st) = file st.
Proof. unfold goto. by destruct (tasks st !! t). Qed.

Lemma goto_clearingFixture : clearingFixture (goto t p st) = clearingFixture st.
Proof. unfold goto. by destruct (tasks st !! t). Qed.

Lemma goto_updating : updating (goto t p st) = updating st.
Proof. unfold goto. by destruct (tasks st !! t). Qed.

Lemma goto_deferreds : deferreds (goto t p st) = deferreds st.
Proof. unfold goto. by destruct (tasks st !! t). Qed.

Lemma goto_console : console (goto t p st) = console st.
Proof. unfold goto. by destruct (tasks st !! t). Qed.

Lemma goto_lookup c q :
  tasks st !! t = Some (Task c q) → tasks (goto t p st) !! t = Some (Task c p).
Proof.
  intros H. unfold goto. rewrite H. cbn.
  apply list_lookup_insert_eq. by eapply lookup_lt_Some.
Qed.

Lemma goto_lookup_ne t' : t ≠ t' → tasks (goto t p st) !! t' = tasks st !! t'.
Proof.
  intros H. unfold goto. destruct (tasks st !! t); [|done].
  cbn. by apply list_lookup_insert_ne.
Qed.

End goto.

Create Rewrite HintDb frame.
#[local] Hint Rewrite goto_file goto_clearingFixture goto_updating
  goto_deferreds goto_console : frame.

(** ** Runs *)

(** A property that every event preserves holds all along a run. *)
Lemma exec_invariant (P : state → Prop) :
  (∀ ev st st', step ev st = Some st' → P st → P st') →
  ∀ evs st st', exec evs st = Some st' → P st → P st'.
Proof.
  intros Hstep evs. induction evs as [|ev evs IH]; intros st st' Hrun HP.
  - by injection Hrun as <-.
  - cbn in Hrun. destruct (step ev st) as [st1|] eqn:Hev; [|done].
    eapply IH; [done|]. by eapply Hstep.
Qed.

Section settle.
Context (d : nat) (p : promise) (st : state).

Lemma settle_file : file (settle d p st) = file st.
Proof. unfold settle. by repeat case_match. Qed.
Lemma settle_clearingFixture : clearingFixture (settle d p st) = clearingFixture st.
Proof. unfold settle. by repeat case_match. Qed.
Lemma settle_updating : updating (settle d p st) = updating st.
Proof. unfold settle. by repeat case_match. Qed.
Lemma settle_tasks : tasks (settle d p st) = tasks st.
Proof. unfold settle. by repeat case_match. Qed.
Lemma settle_console : console (settle d p st) = console st.
Proof. unfold settle. by repeat case_match. Qed.
End settle.

#[local] Hint Rewrite settle_file settle_clearingFixture settle_updating
  settle_tasks settle_console : frame.

(** Splits [step ev st = Some st'] into the cases of [step]. *)
Ltac step_cases H :=
  unfold step, updateFixture, readFixture, readFixture_returns,
    readFixture_throws, finish, try_end, catch_block, deferred in H;
  repeat case_match; simplify_eq; cbn [fst snd] in *.

(** The task an event moves, after the move. *)
Ltac moved t t' :=
  destruct (decide (t = t')) as [<-|];
  [erewrite goto_lookup in * by (cbn; autorewrite with frame; cbn; eauto)
  |rewrite goto_lookup_ne in * by done].

Lemma step_clearing_respected ev st st' :
  step ev st = Some st' → clearing_respected st → clearing_respected st'.
Proof.
  intros Hev Hinv t' c' p' Ht' Hp'.
  destruct ev as [c|err|t|t err].
  - step_cases Hev; unfold spawn in *; cbn in *;
      (apply lookup_app_Some in Ht' as [Ht'|[_ Ht']];
       [by eapply Hinv|]);
      apply list_lookup_singleton_Some in Ht' as [_ ?]; simplify_eq.
  - step_cases Hev; cbn in *; [|done].
    specialize (Hinv _ _ _ Ht' Hp'). congruence.
  - step_cases Hev; moved t t'; simplify_eq; autorewrite with frame in *;
      cbn in *; autorewrite with frame in *; eauto.
  - step_cases Hev; moved t t'; simplify_eq; autorewrite with frame in *;
      cbn in *; autorewrite with frame in *; eauto.
Qed.

Lemma settle_pending d p st d' :
  p ≠ Pending →
  deferreds (settle d p st) !! d' = Some Pending →
  deferreds st !! d' = Some Pending ∧ d' ≠ d.
Proof.
  intros Hp. unfold settle.
  destruct (deferreds st !! d) as [[| |]|] eqn:Hd; cbn; try (intros; split; congruence).
  intros Hd'. destruct (decide (d = d')) as [->|].
  - rewrite list_lookup_insert_eq in Hd' by by eapply lookup_lt_Some.
    congruence.
  - by rewrite list_lookup_insert_ne in Hd'.
Qed.

Lemma step_token_in_slot ev st st' :
  step ev st = Some st' → token_in_slot st → token_in_slot st'.
Proof.
  intros Hev Hinv d' Hd'.
  destruct ev as [c|err|t|t err]; step_cases Hev;
    autorewrite with frame in *; cbn in *; autorewrite with frame in *;
    eauto;
    try (apply settle_pending in Hd' as [Hd' ?]; [|done];
         apply Hinv in Hd'; congruence);
    try (apply Hinv in Hd'; congruence).
  apply lookup_app_Some in Hd' as [Hd'|[? Hd']].
  - apply Hinv in Hd'. congruence.
  - apply list_lookup_singleton_Some in Hd' as [? _]. f_equal. lia.
Qed.

(** At most one entry of [l] satisfies [is_pending] when all such entries
    sit at one index. *)
Lemma filter_pending_le_1 (l : list promise) :
  (∀ i j, l !! i = Some Pending → l !! j = Some Pending → i = j) →
  length (filter is_pending l) ≤ 1.
Proof.
  induction l as [|p l IH]; intros Huniq; [cbn; lia|].
  destruct p; rewrite ?filter_cons_True, ?filter_cons_False by (cbn; tauto).
  - assert (filter is_pending l = []) as ->; [|cbn; lia].
    destruct (filter is_pending l) as [|q qs] eqn:Hf; [done|].
    assert (Hq : q ∈ filter is_pending l) by (rewrite Hf; left).
    apply list_elem_of_filter in Hq as [Hpend Hq].
    destruct q; try done.
    apply list_elem_of_lookup in Hq as [i Hi].
    by specialize (Huniq 0 (S i) eq_refl Hi).
  - apply IH. intros i j Hi Hj. by specialize (Huniq (S i) (S j) Hi Hj) as [= ->].
  - apply IH. intros i j Hi Hj. by specialize (Huniq (S i) (S j) Hi Hj) as [= ->].
Qed.

(** However the calls interleave, at most one update token is pending,
    and it is the one in the slot. *)
Lemma at_most_one_pending_token (f : option contents) (evs : list event)
  (st : state) :
  exec evs (boot f) = Some st →
  token_in_slot st ∧ pending_tokens st ≤ 1.
Proof.
  intros Hrun.
  assert (Hinv : token_in_slot st).
  { eapply (exec_invariant token_in_slot); [apply step_token_in_slot|done|].
    by intros d Hd. }
  split; [done|]. apply filter_pending_le_1.
  intros i j Hi Hj. apply Hinv in Hi, Hj. congruence.
Qed.

(** ** One call, nobody else running *)

(** C4.  A single [updateFixture P] call that finds the slot empty and a
    file holding the object [D], and whose read and write succeed, leaves
    the file holding the shallow merge of [D] and [P]: a key of [P] has
    [P]'s value, any other key has what [D] had for it, and every key of
    [D] is still there.  The call resolves and the slot is empty again. *)
Theorem updateFixture_persists_shallow_merge
  (st : state) (D P : gmap string json) :
  file st = Some (JsonText (JObj D)) →
  clearingFixture st = Fulfilled →
  updating st = None →
  let t := length (tasks st) in
  ∃ st' doc,
    exec [Call (UpdateFixture P); Resume t; IoDone t None; IoDone t None] st
      = Some st' ∧
    file st' = Some (JsonText (JObj doc)) ∧
    outcome_of st' t = Some (Returned None) ∧
    updating st' = None ∧
    (∀ k v, P !! k = Some v → doc !! k = Some v) ∧
    (∀ k, P !! k = None → doc !! k = D !! k) ∧
    dom D ⊆ dom doc.
Proof.
  destruct st as [f cl u ds ts co]; cbn; intros -> -> ->.
  exists (State (Some (JsonText (JObj (P ∪ D)))) Fulfilled None
            (ds ++ [Fulfilled])
            (ts ++ [Task (UpdateFixture P) (Settled (Returned None))]) co),
         (P ∪ D).
  split; [by run|]. split; [done|]. split; [by run|]. split; [done|].
  split; [|split].
  - intros k v Hk. by apply lookup_union_Some_l.
  - intros k Hk. by apply lookup_union_r.
  - rewrite dom_union. set_solver.
Qed.

Lemma updateFixture_persists_shallow_merge_witness :
  ∃ st' doc,
    exec [Call (UpdateFixture doc_b2); Resume 0; IoDone 0 None; IoDone 0 None]
         (idle (Some (JsonText (JObj doc_a1)))) = Some st' ∧
    file st' = Some (JsonText (JObj doc)) ∧
    outcome_of st' 0 = Some (Returned None) ∧
    updating st' = None ∧
    (∀ k v, doc_b2 !! k = Some v → doc !! k = Some v) ∧
    (∀ k, doc_b2 !! k = None → doc !! k = doc_a1 !! k) ∧
    dom doc_a1 ⊆ dom doc.
Proof.
  apply (updateFixture_persists_shallow_merge
           (idle (Some (JsonText (JObj doc_a1)))) doc_a1 doc_b2);
    reflexivity.
Defined.

(** C9.  A single [updateFixture P] call that finds the slot empty and a
    file that cannot be read or parsed does not reject when its two
    writes succeed: [readFixture] logs the failure and resets the file to
    the empty object, [P] is merged into the empty document, and the file
    ends up holding exactly [P].  Whatever the file held is gone. *)
Theorem updateFixture_on_unreadable_file
  (st : state) (P : gmap string json) (rerr : option error) (e : error) :
  clearingFixture st = Fulfilled →
  updating st = None →
  read_and_parse (file st) rerr = inl e →
  let t := length (tasks st) in
  ∃ st1 st',
    exec [Call (UpdateFixture P); Resume t; IoDone t rerr; IoDone t None] st
      = Some st1 ∧
    file st1 = Some empty_object_text ∧
    console st1 = console st ++ [e] ∧
    tasks st1 !! t = Some (Task (UpdateFixture P) (AwaitWriteFile P)) ∧
    step (IoDone t None) st1 = Some st' ∧
    file st' = Some (JsonText (JObj P)) ∧
    outcome_of st' t = Some (Returned None) ∧
    updating st' = None.
Proof.
  destruct st as [f cl u ds ts co]; cbn; intros -> -> Hread.
  exists (State (Some empty_object_text) Fulfilled (Some (length ds))
            (ds ++ [Pending])
            (ts ++ [Task (UpdateFixture P) (AwaitWriteFile P)]) (co ++ [e])),
         (State (Some (JsonText (JObj P))) Fulfilled None
            (ds ++ [Fulfilled])
            (ts ++ [Task (UpdateFixture P) (Settled (Returned None))])
            (co ++ [e])).
  split.
  { run. rewrite Hread. run. unfold merge_updates, spread.
    by rewrite (right_id_L ∅ (∪)). }
  do 3 (split; [by run|]).
  split; [by run|]. split; [done|]. split; [by run|]. done.
Qed.

Lemma updateFixture_on_unreadable_file_witness :
  ∃ st1 st',
    exec [Call (UpdateFixture doc_a1); Resume 0; IoDone 0 None; IoDone 0 None]
         (idle (Some (Unparsable "{oops"))) = Some st1 ∧
    file st1 = Some empty_object_text ∧
    console st1 = [SyntaxError] ∧
    tasks st1 !! 0 = Some (Task (UpdateFixture doc_a1) (AwaitWriteFile doc_a1)) ∧
    step (IoDone 0 None) st1 = Some st' ∧
    file st' = Some (JsonText (JObj doc_a1)) ∧
    outcome_of st' 0 = Some (Returned None) ∧
    updating st' = None.
Proof.
  apply (updateFixture_on_unreadable_file
           (idle (Some (Unparsable "{oops"))) doc_a1 None SyntaxError);
    reflexivity.
Defined.

(** C10.  [readFixture] does not look at the shape of what it parsed.
    When the file holds JSON that is not an object ([null], a number, a
    string, an array), a [readFixture] call whose read succeeds returns
    that very value, which is not the empty mapping; it logs nothing and
    leaves the file alone. *)
Theorem readFixture_returns_non_object_as_is (st : state) (v : json) :
  file st = Some (JsonText v) →
  clearingFixture st = Fulfilled →
  is_object v = false →
  let t := length (tasks st) in
  ∃ st',
    exec [Call ReadFixture; Resume t; IoDone t None] st = Some st' ∧
    outcome_of st' t = Some (Returned (Some v)) ∧
    outcome_of st' t ≠ Some (Returned (Some (JObj ∅))) ∧
    console st' = console st ∧
    file st' = file st.
Proof.
  destruct st as [f cl u ds ts co]; cbn; intros -> -> Hv.
  exists (State (Some (JsonText v)) Fulfilled u ds
            (ts ++ [Task ReadFixture (Settled (Returned (Some v)))]) co).
  split; [by run|]. split; [by run|]. split; [|done].
  run. intros [= ->]. discriminate Hv.
Qed.

Lemma readFixture_returns_non_object_as_is_witness :
  ∃ st',
    exec [Call ReadFixture; Resume 0; IoDone 0 None]
         (idle (Some (JsonText JNull))) = Some st' ∧
    outcome_of st' 0 = Some (Returned (Some JNull)) ∧
    outcome_of st' 0 ≠ Some (Returned (Some (JObj ∅))) ∧
    console st' = [] ∧
    file st' = Some (JsonText JNull).
Proof.
  apply (readFixture_returns_non_object_as_is
           (idle (Some (JsonText JNull))) JNull); reflexivity.
Defined.

(** ** [readFixture] and a file it cannot read *)




(** ** The start-up write *)

(** [clearingFixture] is settled once and by nobody but the start-up
    write. *)
Lemma step_clearingFixture ev st st' :
  step ev st = Some st' →
  clearingFixture st' = Fulfilled →
  clearingFixture st = Fulfilled ∨
  ev = ClearingDone None ∧ file st' = Some empty_object_text.
Proof.
  intros Hev Hcl.
  destruct ev as [c|err|t|t err]; step_cases Hev;
    autorewrite with frame in *; cbn in *; autorewrite with frame in *;
    auto; congruence.
Qed.

Lemma clearing_history evs st st' :
  exec evs st = Some st' →
  clearingFixture st ≠ Fulfilled →
  clearingFixture st' = Fulfilled →
  ∃ evs1 evs2 st0 st1,
    evs = evs1 ++ ClearingDone None :: evs2 ∧
    exec evs1 st = Some st0 ∧
    step (ClearingDone None) st0 = Some st1 ∧
    file st1 = Some empty_object_text ∧
    exec evs2 st1 = Some st'.
Proof.
  revert st. induction evs as [|ev evs IH]; intros st Hrun Hst Hst'.
  - cbn in Hrun. by simplify_eq.
  - cbn in Hrun. destruct (step ev st) as [s1|] eqn:Hev; [|done].
    assert (clearingFixture s1 = Fulfilled ∨ clearingFixture s1 ≠ Fulfilled)
      as [Hs1|Hs1] by (destruct (clearingFixture s1); auto).
    + destruct (step_clearingFixture _ _ _ Hev Hs1) as [?|[-> Hfile]]; [done|].
      by exists [], evs, st, s1.
    + destruct (IH s1 Hrun Hs1 Hst') as (evs1 & evs2 & st0 & st1 & -> & ? & ? & ? & ?).
      exists (ev :: evs1), evs2, st0, st1. split; [done|].
      split; [|done]. cbn. by rewrite Hev.
Qed.

(** C8.  Loading the module issues the write that empties the fixture to
    ['{}'] (line 21), and [readFixture] awaits that write before it touches
    the file (line 59).  So in every run, a task that has got past line 59
    did so after the start-up write completed and left the file holding
    ['{}'].  In particular, whatever the disk held when the module was
    loaded (nothing at all, say), a [readFixture] call made before the
    start-up write completes finds the file created, holding ['{}'], and
    returns an empty mapping without logging anything. *)
Theorem readFixture_observes_cleared_fixture (f : option contents) :
  (∀ evs st t c p,
     exec evs (boot f) = Some st →
     tasks st !! t = Some (Task c p) →
     past_clearing p = true →
     ∃ evs1 evs2 st0 st1,
       evs = evs1 ++ ClearingDone None :: evs2 ∧
       exec evs1 (boot f) = Some st0 ∧
       step (ClearingDone None) st0 = Some st1 ∧
       file st1 = Some empty_object_text ∧
       exec evs2 st1 = Some st) ∧
  (∃ st,
     exec [Call ReadFixture; ClearingDone None; Resume 0; IoDone 0 None]
          (boot f) = Some st ∧
     file st = Some empty_object_text ∧
     outcome_of st 0 = Some (Returned (Some (JObj ∅))) ∧
     console st = []).
Proof.
  split.
  - intros evs st t c p Hrun Ht Hp.
    eapply clearing_history; [done|done|].
    assert (Hinv : clearing_respected st); [|by eapply Hinv].
    eapply (exec_invariant clearing_respected);
      [apply step_clearing_respected|done|].
    by intros t' c' p' Ht'.
  - by eexists.
Qed.

Lemma readFixture_observes_cleared_fixture_witness :
  ∃ evs1 evs2 st0 st1,
    [ClearingDone None; Call ReadFixture; Resume 0]
      = evs1 ++ ClearingDone None :: evs2 ∧
    exec evs1 (boot None) = Some st0 ∧
    step (ClearingDone None) st0 = Some st1 ∧
    file st1 = Some empty_object_text ∧
    exec evs2 st1
      = Some (State (Some empty_object_text) Fulfilled None []
                [Task ReadFixture AwaitReadFile] []).
Proof.
  apply (proj1 (readFixture_observes_cleared_fixture None)
           [ClearingDone None; Call ReadFixture; Resume 0]
           (State (Some empty_object_text) Fulfilled None []
              [Task ReadFixture AwaitReadFile] [])
           0 ReadFixture AwaitReadFile); reflexivity.
Defined.

(** ** A write that fails *)

Lemma settle_lookup d p st :
  deferreds st !! d = Some Pending → deferreds (settle d p st) !! d = Some p.
Proof.
  intros Hd. unfold settle. rewrite Hd. cbn.
  apply list_lookup_insert_eq. by eapply lookup_lt_Some.
Qed.

(** C3, as stated, fails.  Two calls are issued back to back; the write
    of the first one fails.  The first caller, whose cycle failed, sees
    its promise resolve; the second caller, which never got to write,
    is the one that rejects with the error. *)
Lemma write_failure_reaches_the_waiter_not_the_writer :
  ∃ st,
    exec [ClearingDone None;
          Call (UpdateFixture doc_a1); Call (UpdateFixture doc_b2);
          Resume 0; IoDone 0 None; IoDone 0 (Some (SystemError "EIO"));
          Resume 1]
         (boot None) = Some st ∧
    outcome_of st 0 = Some (Returned None) ∧
    outcome_of st 0 ≠ Some (Thrown (SystemError "EIO")) ∧
    outcome_of st 1 = Some (Thrown (SystemError "EIO")) ∧
    file st = Some empty_object_text.
Proof. eexists. split; [reflexivity|]. cbn. repeat split. discriminate. Qed.

(** C3, amended.  When the write of a cycle fails while the slot is
    occupied, the error is not raised to the caller whose write failed:
    that call resolves, and the error rejects the completion signal in
    the slot, so every caller waiting on that signal rejects with the
    error without running a cycle of its own.  The slot is cleared when
    the write of a cycle completes, whether it succeeded or failed, so a
    call made afterwards finds the slot empty, claims it and enters its
    cycle. *)
Theorem write_failure_rejects_the_token
  (st : state) (t : nat) (updates doc : gmap string json) (d : nat)
  (e : error) :
  tasks st !! t = Some (Task (UpdateFixture updates) (AwaitWriteFile doc)) →
  updating st = Some d →
  deferreds st !! d = Some Pending →
  ∃ st',
    step (IoDone t (Some e)) st = Some st' ∧
    file st' = file st ∧
    outcome_of st' t = Some (Returned None) ∧
    deferreds st' !! d = Some (Rejected e) ∧
    (∀ w c, tasks st !! w = Some (Task c (AwaitUpdating d)) →
       ∃ st'', step (Resume w) st' = Some st'' ∧
               outcome_of st'' w = Some (Thrown e) ∧
               file st'' = file st) ∧
    (∀ err st1, step (IoDone t err) st = Some st1 → updating st1 = None) ∧
    (∀ u, updating (updateFixture u st') = Some (length (deferreds st')) ∧
          tasks (updateFixture u st') !! length (tasks st')
            = Some (Task (UpdateFixture u) AwaitClearing)).
Proof.
  intros Ht Hu Hd.
  set (st0 := set_updating None (settle d (Rejected e) st)).
  assert (Ht0 : tasks st0 !! t
                = Some (Task (UpdateFixture updates) (AwaitWriteFile doc)))
    by (subst st0; cbn; by rewrite settle_tasks).
  exists (goto t (Settled (Returned None)) st0).
  split; [by cbn; rewrite Ht; unfold finish, catch_block; rewrite Hu|].
  split; [by subst st0; autorewrite with frame; cbn; autorewrite with frame|].
  split; [by unfold outcome_of; erewrite goto_lookup|].
  split; [by subst st0; autorewrite with frame; cbn; apply settle_lookup|].
  split; [|split].
  - intros w c Hw.
    assert (t ≠ w) by (intros ->; congruence).
    exists (goto w (Settled (Thrown e)) (goto t (Settled (Returned None)) st0)).
    split.
    + cbn. rewrite goto_lookup_ne by done. subst st0. cbn.
      rewrite settle_tasks, Hw. autorewrite with frame. cbn.
      by rewrite (settle_lookup _ _ _ Hd).
    + split.
      * unfold outcome_of. erewrite goto_lookup; [done|].
        rewrite goto_lookup_ne by done. subst st0. cbn.
        by rewrite settle_tasks.
      * subst st0. autorewrite with frame. cbn. by autorewrite with frame.
  - intros err st1 Hstep. cbn in Hstep. rewrite Ht in Hstep.
    unfold finish, try_end, catch_block in Hstep. cbn in Hstep.
    rewrite Hu in Hstep. destruct err; simplify_eq; by autorewrite with frame.
  - intros u. unfold updateFixture. autorewrite with frame. subst st0. cbn.
    autorewrite with frame. cbn. split; [done|].
    apply lookup_snoc.
Qed.

Lemma write_failure_rejects_the_token_witness :
  let st := State (Some empty_object_text) Fulfilled (Some 0) [Pending]
              [Task (UpdateFixture doc_a1) (AwaitWriteFile doc_a1);
               Task (UpdateFixture doc_b2) (AwaitUpdating 0)] [] in
  let e := SystemError "EIO" in
  ∃ st',
    step (IoDone 0 (Some e)) st = Some st' ∧
    file st' = file st ∧
    outcome_of st' 0 = Some (Returned None) ∧
    deferreds st' !! 0 = Some (Rejected e) ∧
    (∀ w c, tasks st !! w = Some (Task c (AwaitUpdating 0)) →
       ∃ st'', step (Resume w) st' = Some st'' ∧
               outcome_of st'' w = Some (Thrown e) ∧
               file st'' = file st) ∧
    (∀ err st1, step (IoDone 0 err) st = Some st1 → updating st1 = None) ∧
    (∀ u, updating (updateFixture u st') = Some (length (deferreds st')) ∧
          tasks (updateFixture u st') !! length (tasks st')
            = Some (Task (UpdateFixture u) AwaitClearing)).
Proof.
  intros st e.
  apply (write_failure_rejects_the_token st 0 doc_a1 doc_a1 0 e);
    reflexivity.
Defined.

(** ** Calls that overlap *)

(** A caller released from line 40 goes straight to line 44: it leaves
    the slot as it finds it. *)
Lemma released_waiter_leaves_slot st t c d st' :
  tasks st !! t = Some (Task c (AwaitUpdating d)) →
  step (Resume t) st = Some st' →
  updating st' = updating st.
Proof.
  intros Ht Hev. cbn in Hev. rewrite Ht in Hev.
  repeat case_match; simplify_eq; by autorewrite with frame.
Qed.

(** A cycle that ends while the slot is empty rejects with the
    [TypeError] of line 52, whether its write worked or not. *)
Lemma cycle_without_slot_rejects st t c doc err st' :
  tasks st !! t = Some (Task c (AwaitWriteFile doc)) →
  updating st = None →
  step (IoDone t err) st = Some st' →
  outcome_of st' t = Some (Thrown (null_deref "reject")).
Proof.
  intros Ht Hu Hev. cbn in Hev. rewrite Ht in Hev.
  unfold finish, try_end, catch_block in Hev. cbn in Hev. rewrite Hu in Hev.
  unfold outcome_of.
  destruct err; simplify_eq; cbn; by erewrite goto_lookup.
Qed.

(** C1, on the code.  With two overlapping calls the file ends up
    holding both patches.  With three, the second and the third call are
    released together, read the same document, and the write of the third
    overwrites that of the second: the file ends up without ["b"],
    although every read and every write succeeded and the three patches
    applied one after the other give a document with ["b"]. *)
Theorem three_overlapping_updates_lose_one :
  ∃ st2 st3,
    exec two_calls (boot None) = Some st2 ∧
    file st2 = Some (JsonText (JObj (apply_patches [doc_a1; doc_b2] ∅))) ∧
    exec three_calls (boot None) = Some st3 ∧
    file st3 = Some (JsonText (JObj (doc_c3 ∪ doc_a1))) ∧
    (doc_c3 ∪ doc_a1) !! "b" = None ∧
    apply_patches [doc_a1; doc_b2; doc_c3] ∅ !! "b" = Some (JNum 2) ∧
    console st3 = [].
Proof. do 2 eexists. repeat split; by vm_compute. Qed.

(** C2, on the code.  The second of two overlapping calls waits for the
    first cycle to finish.  Once released it is inside its own cycle and
    the slot is empty: it has not claimed it.  It reads, merges and writes
    on its own, the file then holds both patches, and when that write
    completes its promise rejects with a [TypeError]. *)
Theorem second_caller_runs_unclaimed_and_rejects :
  ∃ st1 st2 st3,
    exec [ClearingDone None;
          Call (UpdateFixture doc_a1); Call (UpdateFixture doc_b2)]
         (boot None) = Some st1 ∧
    tasks st1 !! 1 = Some (Task (UpdateFixture doc_b2) (AwaitUpdating 0)) ∧
    step (Resume 1) st1 = None ∧
    exec [Resume 0; IoDone 0 None; IoDone 0 None; Resume 1] st1 = Some st2 ∧
    tasks st2 !! 1 = Some (Task (UpdateFixture doc_b2) AwaitClearing) ∧
    updating st2 = None ∧
    exec [Resume 1; IoDone 1 None; IoDone 1 None] st2 = Some st3 ∧
    file st3 = Some (JsonText (JObj (doc_b2 ∪ doc_a1))) ∧
    outcome_of st3 0 = Some (Returned None) ∧
    outcome_of st3 1
      = Some (Thrown
                (TypeError "Cannot read properties of null (reading 'reject')")).
Proof. do 3 eexists. repeat split; by vm_compute. Qed.

(** C6, on the code.  At most one update token is ever pending
    ([at_most_one_pending_token]), yet two cycles run at once: a caller
    released from line 40 is in its cycle with the slot empty, so a call
    made meanwhile claims the slot and starts a cycle of its own.  When
    the released caller's write completes it resolves the token of that
    other call and empties the slot under it. *)
Theorem two_cycles_at_once :
  ∃ st st',
    exec late_third_call (boot None) = Some st ∧
    cycles st = 2 ∧
    pending_tokens st = 1 ∧
    tasks st !! 1 = Some (Task (UpdateFixture doc_b2) AwaitClearing) ∧
    tasks st !! 2 = Some (Task (UpdateFixture doc_c3) AwaitClearing) ∧
    updating st = Some 1 ∧
    exec [Resume 1; Resume 2; IoDone 1 None; IoDone 2 None; IoDone 1 None]
         st = Some st' ∧
    tasks st' !! 2
      = Some (Task (UpdateFixture doc_c3)
                (AwaitWriteFile (doc_c3 ∪ doc_a1))) ∧
    updating st' = None ∧
    deferreds st' !! 1 = Some Fulfilled.
Proof. do 2 eexists. repeat split; by vm_compute. Qed.

(** ** The assertion helpers *)

Lemma append_empty_r (s : string) : s +:+ "" = s.
Proof.
  induction s as [|c s IH]; [done|].
  change (String c (s +:+ "") = String c s). by rewrite IH.
Qed.

Lemma not_found_raises_with kind name dump :
  raises_with dump (Thrown (Error (not_found kind name dump))).
Proof.
  exists (kind +:+ " " +:+ dquote +:+ name +:+ dquote
            +:+ " required, but not found in "), "".
  by rewrite append_empty_r.
Qed.

Lemma URLSearchParams_get_None params name :
  URLSearchParams_get params name = None ↔ name ∉ params.*1.
Proof.
  unfold URLSearchParams_get. induction params as [|[k v] params IH].
  - split; [|done]. intros _. apply not_elem_of_nil.
  - rewrite fmap_cons, not_elem_of_cons, <-IH.
    destruct (decide (k = name)) as [->|Hk].
    + rewrite filter_cons_True by done. cbn. intuition congruence.
    + rewrite filter_cons_False by done. cbn. intuition congruence.
Qed.

Lemma Headers_get_None headers name :
  Headers_get headers name = None ↔
  lowercase name ∉ lowercase <$> headers.*1.
Proof.
  unfold Headers_get, Headers_values.
  induction headers as [|[k v] headers IH].
  - split; [|done]. intros _. apply not_elem_of_nil.
  - rewrite !fmap_cons, not_elem_of_cons, <-IH.
    destruct (decide (lowercase k = lowercase name)) as [Hk|Hk].
    + rewrite filter_cons_True by done. cbn. intuition congruence.
    + rewrite filter_cons_False by done. cbn. intuition congruence.
Qed.


(** * Further properties of the fixture store *)

(** ** The slot and its token *)

Lemma step_slot_is_pending ev st st' :
  step ev st = Some st' → slot_is_pending st → slot_is_pending st'.
Proof.
  intros Hev Hinv d' Hd'.
  destruct ev as [c|err|t|t err]; step_cases Hev;
    autorewrite with frame in *; cbn in *; autorewrite with frame in *;
    eauto; try done.
  simplify_eq. apply lookup_snoc.
Qed.

(** X1.  In every run from module load, a deferred is pending exactly
    when it is the one in the slot; so there is never more than one
    pending update token, and an empty slot means none is pending. *)
Theorem pending_token_is_the_slot (f : option contents) (evs : list event)
  (st : state) :
  exec evs (boot f) = Some st →
  (∀ d, deferreds st !! d = Some Pending ↔ updating st = Some d) ∧
  pending_tokens st ≤ 1 ∧
  (updating st = None → pending_tokens st = 0).
Proof.
  intros Hrun.
  assert (Htok : token_in_slot st).
  { eapply (exec_invariant token_in_slot); [apply step_token_in_slot|done|].
    by intros d Hd. }
  assert (Hslot : slot_is_pending st).
  { eapply (exec_invariant slot_is_pending); [apply step_slot_is_pending|done|].
    by intros d Hd. }
  split; [by split; [apply Htok|apply Hslot]|]. split.
  - apply filter_pending_le_1. intros i j Hi Hj.
    apply Htok in Hi, Hj. congruence.
  - intros Hnone. unfold pending_tokens.
    destruct (filter is_pending (deferreds st)) as [|q qs] eqn:Hf; [done|].
    assert (Hq : q ∈ filter is_pending (deferreds st)) by (rewrite Hf; left).
    apply list_elem_of_filter in Hq as [Hpend Hq]. destruct q; try done.
    apply list_elem_of_lookup in Hq as [i Hi]. apply Htok in Hi. congruence.
Qed.

Lemma pending_token_is_the_slot_witness :
  ∃ st,
    exec late_third_call (boot None) = Some st ∧
    (∀ d, deferreds st !! d = Some Pending ↔ updating st = Some d) ∧
    pending_tokens st ≤ 1 ∧
    (updating st = None → pending_tokens st = 0).
Proof.
  eexists. split; [reflexivity|].
  apply (pending_token_is_the_slot None late_third_call). reflexivity.
Defined.

(** ** What the module writes *)

Lemma step_holds_object ev st st' :
  step ev st = Some st' → holds_object st → holds_object st'.
Proof.
  intros Hev Hinv Hcl.
  destruct ev as [c|err|t|t err]; step_cases Hev;
    autorewrite with frame in *; cbn in *; autorewrite with frame in *;
    eauto; try done.
  all: by eexists.
Qed.



(** ** Calls that do not overlap *)

Lemma exec_app (evs1 evs2 : list event) (st : state) :
  exec (evs1 ++ evs2) st = exec evs1 st ≫= exec evs2.
Proof.
  revert st. induction evs1 as [|ev evs1 IH]; intros st; [done|].
  cbn. destruct (step ev st); [apply IH|done].
Qed.

(** The state an uncontended call leaves, field by field. *)
Lemma exec_updateFixture_alone v ds ts co updates :
  exec (updateFixture_alone (length ts) updates)
       (State (Some (JsonText v)) Fulfilled None ds ts co)
  = Some (State (Some (JsonText (JObj (merge_updates v updates))))
            Fulfilled None (ds ++ [Fulfilled])
            (ts ++ [Task (UpdateFixture updates) (Settled (Returned None))])
            co).
Proof.
  unfold updateFixture_alone. run.
  change (read_and_parse (Some (JsonText v)) None) with (inr v : error + json).
  by run.
Qed.

Lemma exec_readFixture_alone v u ds ts co :
  exec (readFixture_alone (length ts))
       (State (Some (JsonText v)) Fulfilled u ds ts co)
  = Some (State (Some (JsonText v)) Fulfilled u ds
            (ts ++ [Task ReadFixture (Settled (Returned (Some v)))]) co).
Proof.
  unfold readFixture_alone. run.
  change (read_and_parse (Some (JsonText v)) None) with (inr v : error + json).
  by run.
Qed.

Lemma exec_sequential patches D ds ts co :
  exec (sequential patches (length ts))
       (State (Some (JsonText (JObj D))) Fulfilled None ds ts co)
  = Some (State (Some (JsonText (JObj (apply_patches patches D))))
            Fulfilled None
            (ds ++ replicate (length patches) Fulfilled)
            (ts ++ ((λ updates,
                       Task (UpdateFixture updates) (Settled (Returned None)))
                      <$> patches))
            co).
Proof.
  revert D ds ts. induction patches as [|P patches IH]; intros D ds ts.
  - cbn. by rewrite !app_nil_r.
  - cbn [sequential]. rewrite exec_app, exec_updateFixture_alone. cbn.
    replace (S (length ts))
      with (length (ts ++ [Task (UpdateFixture P) (Settled (Returned None))]))
      by (rewrite length_app; cbn; lia).
    rewrite IH. by rewrite <-!app_assoc.
Qed.

(** A key has what the last patch that names it gives it, or else what
    the document had. *)
Lemma last_write_from k patches acc :
  foldl (λ acc updates,
           match updates !! k with Some v => Some v | None => acc end)
        acc patches
  = match last_write k patches with Some v => Some v | None => acc end.
Proof.
  unfold last_write. revert acc.
  induction patches as [|P patches IH]; intros acc; [done|].
  cbn. rewrite (IH (match P !! k with Some v => Some v | None => None end)).
  rewrite IH. by destruct (foldl _ None patches), (P !! k).
Qed.

Lemma apply_patches_lookup patches D k :
  apply_patches patches D !! k
  = match last_write k patches with Some v => Some v | None => D !! k end.
Proof.
  revert D. induction patches as [|P patches IH]; intros D; [done|].
  change (apply_patches (P :: patches) D)
    with (apply_patches patches (merge_updates (JObj D) P)).
  change (last_write k (P :: patches))
    with (foldl (λ acc updates,
                   match updates !! k with Some v => Some v | None => acc end)
                (match P !! k with Some v => Some v | None => None end)
                patches).
  rewrite IH, last_write_from. unfold merge_updates, spread.
  destruct (last_write k patches); [done|].
  destruct (P !! k) as [v|] eqn:HP.
  - by apply lookup_union_Some_l.
  - by apply lookup_union_r.
Qed.

(** X3.  Calls that do not overlap compose: when each [updateFixture]
    call is made after the one before has finished, and every read and
    write succeeds, every call resolves, the slot ends up empty, and the
    file holds the patches applied in call order to the document it had.
    So a key ends up with the value of the last patch that names it, and
    with the document's value if no patch does. *)
Theorem sequential_updates_compose (st : state) (D : gmap string json)
  (patches : list (gmap string json)) :
  file st = Some (JsonText (JObj D)) →
  clearingFixture st = Fulfilled →
  updating st = None →
  ∃ st',
    exec (sequential patches (length (tasks st))) st = Some st' ∧
    file st' = Some (JsonText (JObj (apply_patches patches D))) ∧
    updating st' = None ∧
    (∀ i updates, patches !! i = Some updates →
       outcome_of st' (length (tasks st) + i) = Some (Returned None)) ∧
    (∀ k, apply_patches patches D !! k
          = match last_write k patches with
            | Some v => Some v
            | None => D !! k
            end).
Proof.
  destruct st as [f cl u ds ts co]; cbn; intros -> -> ->.
  eexists. split; [apply exec_sequential|]. cbn.
  split; [done|]. split; [done|]. split; [|apply apply_patches_lookup].
  intros i P Hi. unfold outcome_of. cbn.
  rewrite lookup_app_r by lia.
  replace (length ts + i - length ts) with i by lia.
  by rewrite list_lookup_fmap, Hi.
Qed.

Lemma sequential_updates_compose_witness :
  let patches := [doc_a1; doc_b2; {[ "a" := JNum 7 ]}] in
  ∃ st',
    exec (sequential patches 0) (idle (Some empty_object_text)) = Some st' ∧
    file st' = Some (JsonText (JObj (apply_patches patches ∅))) ∧
    updating st' = None ∧
    (∀ i updates, patches !! i = Some updates →
       outcome_of st' (0 + i) = Some (Returned None)) ∧
    (∀ k, apply_patches patches ∅ !! k
          = match last_write k patches with
            | Some v => Some v
            | None => (∅ : gmap string json) !! k
            end).
Proof.
  intros patches.
  apply (sequential_updates_compose (idle (Some empty_object_text)) ∅ patches);
    reflexivity.
Defined.

(** X4.  A read sees the write before it: after an [updateFixture] call
    that ran alone on a readable file, a [readFixture] call returns the
    very document the file holds, every key of the patch is in it with
    the patch's value, and the read logs nothing and leaves the file
    alone. *)
Theorem readFixture_sees_the_update (st : state) (v : json)
  (updates : gmap string json) :
  file st = Some (JsonText v) →
  clearingFixture st = Fulfilled →
  updating st = None →
  let t := length (tasks st) in
  ∃ st' doc,
    exec (updateFixture_alone t updates ++ readFixture_alone (S t)) st
      = Some st' ∧
    outcome_of st' t = Some (Returned None) ∧
    outcome_of st' (S t) = Some (Returned (Some (JObj doc))) ∧
    file st' = Some (JsonText (JObj doc)) ∧
    console st' = console st ∧
    (∀ k x, updates !! k = Some x → doc !! k = Some x).
Proof.
  destruct st as [f cl u ds ts co]. intros Hf Hcl Hu t.
  cbn in Hf, Hcl, Hu, t. subst f cl u t.
  eexists _, (merge_updates v updates). split.
  { rewrite exec_app, exec_updateFixture_alone. cbn.
    replace (S (length ts))
      with (length (ts ++ [Task (UpdateFixture updates)
                             (Settled (Returned None))]))
      by (rewrite length_app; cbn; lia).
    apply exec_readFixture_alone. }
  unfold outcome_of. cbn.
  split.
  { rewrite lookup_app_l by (rewrite length_app; cbn; lia).
    by rewrite lookup_snoc. }
  split.
  { replace (S (length ts))
      with (length (ts ++ [Task (UpdateFixture updates)
                             (Settled (Returned None))]))
      by (rewrite length_app; cbn; lia).
    by rewrite lookup_snoc. }
  split; [done|]. split; [done|].
  intros k x Hk. by apply lookup_union_Some_l.
Qed.

Lemma readFixture_sees_the_update_witness :
  ∃ st' doc,
    exec (updateFixture_alone 0 doc_b2 ++ readFixture_alone 1)
         (idle (Some (JsonText (JObj doc_a1)))) = Some st' ∧
    outcome_of st' 0 = Some (Returned None) ∧
    outcome_of st' 1 = Some (Returned (Some (JObj doc))) ∧
    file st' = Some (JsonText (JObj doc)) ∧
    console st' = [] ∧
    (∀ k x, doc_b2 !! k = Some x → doc !! k = Some x).
Proof.
  apply (readFixture_sees_the_update
           (idle (Some (JsonText (JObj doc_a1)))) (JObj doc_a1) doc_b2);
    reflexivity.
Defined.

(** ** A document that is not an object *)

Lemma indexed_keys {A} (f : A → json) (l : list A) :
  (imap (λ i x, (pretty i, f x)) l).*1 = pretty <$> seq 0 (length l).
Proof.
  rewrite fmap_imap. rewrite <-imap_seq_0. by apply imap_ext.
Qed.

(** [{ ...array }] has element [i] under the key ["i"]. *)
Lemma indexed_lookup {A} (f : A → json) (l : list A) (i : nat) :
  indexed f l !! pretty i = f <$> l !! i.
Proof.
  unfold indexed. destruct (l !! i) as [x|] eqn:Hi; cbn.
  - apply elem_of_list_to_map.
    + rewrite indexed_keys. apply (NoDup_fmap_2 _), NoDup_seq.
    + by apply (elem_of_lookup_imap_2 (λ i x, (pretty i, f x))).
  - apply not_elem_of_list_to_map_1. rewrite indexed_keys.
    intros (j & Hj%(inj _) & Hseq)%list_elem_of_fmap. subst j.
    apply elem_of_seq in Hseq. apply lookup_ge_None in Hi. lia.
Qed.

(** X5.  [updateFixture] turns a file that holds JSON other than an
    object into one that holds an object.  The patch is always in it.
    Over [null], a boolean or a number the result is exactly the patch;
    over an array, element [i] lands under the key ["i"] unless the patch
    has that key. *)
Theorem updateFixture_over_non_object (st : state) (v : json)
  (updates : gmap string json) :
  file st = Some (JsonText v) →
  clearingFixture st = Fulfilled →
  updating st = None →
  let t := length (tasks st) in
  ∃ st' doc,
    exec (updateFixture_alone t updates) st = Some st' ∧
    file st' = Some (JsonText (JObj doc)) ∧
    outcome_of st' t = Some (Returned None) ∧
    (∀ k x, updates !! k = Some x → doc !! k = Some x) ∧
    (v = JNull ∨ (∃ b, v = JBool b) ∨ (∃ n, v = JNum n) → doc = updates) ∧
    (∀ l i, v = JArr l → updates !! pretty i = None →
            doc !! pretty i = l !! i).
Proof.
  destruct st as [f cl u ds ts co]. intros Hf Hcl Hu t.
  cbn in Hf, Hcl, Hu, t. subst f cl u t.
  eexists _, (merge_updates v updates).
  split; [apply exec_updateFixture_alone|]. cbn.
  split; [done|]. split; [by unfold outcome_of; cbn; rewrite lookup_snoc|].
  unfold merge_updates. split; [|split].
  - intros k x Hk. by apply lookup_union_Some_l.
  - intros [->|[[b ->]|[n ->]]]; cbn; by rewrite (right_id_L ∅ (∪)).
  - intros l i -> Hi. rewrite lookup_union_r by done. cbn.
    rewrite indexed_lookup. by destruct (l !! i).
Qed.

Lemma updateFixture_over_non_object_witness :
  let v := JArr [JStr "x"; JStr "y"] in
  ∃ st' doc,
    exec (updateFixture_alone 0 doc_a1) (idle (Some (JsonText v))) = Some st' ∧
    file st' = Some (JsonText (JObj doc)) ∧
    outcome_of st' 0 = Some (Returned None) ∧
    (∀ k x, doc_a1 !! k = Some x → doc !! k = Some x) ∧
    (v = JNull ∨ (∃ b, v = JBool b) ∨ (∃ n, v = JNum n) → doc = doc_a1) ∧
    (∀ l i, v = JArr l → doc_a1 !! pretty i = None →
            doc !! pretty i = l !! i).
Proof.
  intros v.
  apply (updateFixture_over_non_object (idle (Some (JsonText v))) v doc_a1);
    reflexivity.
Defined.

(** ** When the start-up write fails *)

Lemma step_keeps_fulfilled ev st st' :
  step ev st = Some st' →
  clearingFixture st = Fulfilled → clearingFixture st' = Fulfilled.
Proof.
  intros Hev Hcl.
  destruct ev as [c|err|t|t err]; step_cases Hev;
    autorewrite with frame in *; cbn in *; autorewrite with frame in *;
    cbn in *; congruence.
Qed.

Lemma step_waiting_for_clearing f ev st st' :
  step ev st = Some st' →
  waiting_for_clearing f st → waiting_for_clearing f st'.
Proof.
  intros Hev Hinv Hcl'.
  assert (Hcl : clearingFixture st ≠ Fulfilled)
    by (intros Hful; apply Hcl'; by eapply step_keeps_fulfilled).
  destruct (Hinv Hcl) as (Hfile & Hcons & Hpast & Hread).
  destruct ev as [c|err|t|t err].
  - assert (Hnew : ∃ p, tasks st' = tasks st ++ [Task c p] ∧
                        past_clearing p = false ∧
                        (c = ReadFixture → p = AwaitClearing) ∧
                        file st' = file st ∧ console st' = console st ∧
                        clearingFixture st' = clearingFixture st).
    { step_cases Hev; eexists; (split; [reflexivity|]); done. }
    destruct Hnew as (p & -> & Hp & Hc & -> & -> & Hcl'').
    split; [done|]. split; [done|]. split.
    + intros t' c' p' [Ht'|[_ Ht']]%lookup_app_Some; [by eapply Hpast|].
      apply list_lookup_singleton_Some in Ht' as [_ ?]. by simplify_eq.
    + intros t' p' [Ht'|[_ Ht']]%lookup_app_Some.
      * rewrite Hcl''. by eapply Hread.
      * apply list_lookup_singleton_Some in Ht' as [_ ?]. simplify_eq.
        left. by apply Hc.
  - step_cases Hev; cbn in *; try done.
    do 3 (split; [done|]). intros t' p' Ht'.
    destruct (Hread _ _ Ht') as [?|(e' & _ & ?)]; [by left|congruence].
  - step_cases Hev;
      try (match goal with
           | H : tasks _ !! _ = Some (Task ReadFixture (AwaitUpdating _)) |- _ =>
               destruct (Hread _ _ H) as [?|(? & ? & ?)]; discriminate
           end);
      autorewrite with frame; cbn; autorewrite with frame;
      (split; [done|]); (split; [done|]); split;
      intros t'; intros; moved t t'; simplify_eq; cbn in *;
      autorewrite with frame in *; eauto; try congruence;
      try (by eapply Hread);
      try (match goal with
           | Hc : clearingFixture _ = Rejected _ |- _ =>
               rewrite Hc; by eapply Hread
           end);
      try (match goal with
           | H : tasks _ !! _ = Some (Task ReadFixture (AwaitUpdating _)) |- _ =>
               destruct (Hread _ _ H) as [?|(? & ? & ?)]; discriminate
           end).
  - step_cases Hev;
      match goal with
      | H : tasks _ !! _ = Some (Task _ _) |- _ =>
          by specialize (Hpast _ _ _ H)
      end.
Qed.



(** X7.  After a failed start-up write an [updateFixture] call that
    finds the slot empty resolves without having written anything: the
    error of the start-up write goes to the call's own token, the patch
    is dropped, and the slot is empty again. *)
Theorem updateFixture_after_failed_startup (st : state)
  (updates : gmap string json) (e : error) :
  clearingFixture st = Rejected e →
  updating st = None →
  let t := length (tasks st) in
  ∃ st',
    exec [Call (UpdateFixture updates); Resume t] st = Some st' ∧
    outcome_of st' t = Some (Returned None) ∧
    file st' = file st ∧
    console st' = console st ∧
    updating st' = None ∧
    deferreds st' = deferreds st ++ [Rejected e].
Proof.
  destruct st as [f cl u ds ts co]; cbn; intros -> ->.
  exists (State f (Rejected e) None (ds ++ [Rejected e])
            (ts ++ [Task (UpdateFixture updates) (Settled (Returned None))])
            co).
  split; [by run|]. split; [by run|]. done.
Qed.

Lemma updateFixture_after_failed_startup_witness :
  let e := SystemError "EACCES" in
  let st := State None (Rejected e) None [] [] [] in
  ∃ st',
    exec [Call (UpdateFixture doc_a1); Resume 0] st = Some st' ∧
    outcome_of st' 0 = Some (Returned None) ∧
    file st' = None ∧
    console st' = [] ∧
    updating st' = None ∧
    deferreds st' = [Rejected e].
Proof.
  intros e st.
  apply (updateFixture_after_failed_startup st doc_a1 e); reflexivity.
Defined.

(** ** How a cycle ends, and what a read may touch *)

(** X8.  Whether an [updateFixture] call resolves or rejects is decided
    by the slot, not by its reads and writes: a call inside its cycle
    that settles while the slot is occupied resolves, whatever failed,
    and one that settles while the slot is empty rejects with the
    [TypeError] of line 52, whatever succeeded.  Either way the slot is
    empty afterwards. *)
Theorem cycle_outcome_decided_by_slot (st st' : state) (t : nat)
  (updates : gmap string json) (p : pc) (ev : event) (r : outcome) :
  tasks st !! t = Some (Task (UpdateFixture updates) p) →
  in_cycle (Task (UpdateFixture updates) p) = true →
  step ev st = Some st' →
  outcome_of st' t = Some r →
  updating st' = None ∧
  (is_Some (updating st) ∧ r = Returned None ∨
   updating st = None ∧ r = Thrown (null_deref "reject")).
Proof.
  intros Ht Hp Hev Hr. unfold outcome_of in Hr.
  destruct ev as [c|err|t0|t0 err].
  - assert (Htasks : ∃ q, tasks st' = tasks st ++ [Task c q])
      by (step_cases Hev; by eexists).
    destruct Htasks as [q Hq]. rewrite Hq in Hr.
    rewrite lookup_app_l, Ht in Hr by by eapply lookup_lt_Some.
    by destruct p.
  - assert (tasks st' = tasks st) as Hq by by step_cases Hev.
    rewrite Hq, Ht in Hr. by destruct p.
  - step_cases Hev; moved t0 t; simplify_eq; cbn in *;
      autorewrite with frame in *; cbn in *;
      repeat match goal with
             | H : tasks _ !! _ = Some _ |- _ => rewrite H in Hr
             end;
      simplify_eq; try (by destruct p); eauto.
  - step_cases Hev; moved t0 t; simplify_eq; cbn in *;
      autorewrite with frame in *; cbn in *;
      repeat match goal with
             | H : tasks _ !! _ = Some _ |- _ => rewrite H in Hr
             end;
      simplify_eq; try (by destruct p); eauto.
Qed.

Lemma cycle_outcome_decided_by_slot_witness :
  let st := State (Some empty_object_text) Fulfilled None [Fulfilled]
              [Task (UpdateFixture doc_a1) (AwaitWriteFile doc_a1)] [] in
  ∃ st',
    step (IoDone 0 None) st = Some st' ∧
    file st' = Some (JsonText (JObj doc_a1)) ∧
    updating st' = None ∧
    (is_Some (updating st) ∧
       Thrown (null_deref "reject") = Returned None ∨
     updating st = None ∧
       Thrown (null_deref "reject") = Thrown (null_deref "reject")).
Proof.
  intros st. eexists. split; [reflexivity|]. split; [reflexivity|].
  apply (cycle_outcome_decided_by_slot st _ 0 doc_a1 (AwaitWriteFile doc_a1)
           (IoDone 0 None)); reflexivity.
Defined.

Lemma step_reads_stay_in_readFixture ev st st' :
  step ev st = Some st' →
  reads_stay_in_readFixture st → reads_stay_in_readFixture st'.
Proof.
  intros Hev Hinv t' p' Ht'.
  destruct ev as [c|err|t|t err].
  - assert (Hnew : ∃ q, tasks st' = tasks st ++ [Task c q] ∧
                        (c = ReadFixture → q = AwaitClearing))
      by (step_cases Hev; eexists; (split; [reflexivity|]); done).
    destruct Hnew as (q & Hq & Hc). rewrite Hq in Ht'.
    apply lookup_app_Some in Ht' as [Ht'|[_ Ht']]; [by eapply Hinv|].
    apply list_lookup_singleton_Some in Ht' as [_ ?]. simplify_eq.
    by rewrite Hc.
  - step_cases Hev; cbn in *; by eapply Hinv.
  - step_cases Hev; moved t t'; simplify_eq; cbn in *;
      autorewrite with frame in *; cbn in *;
      try done; try (by eapply Hinv);
      match goal with
      | H : tasks _ !! _ = Some (Task ReadFixture _) |- _ =>
          by specialize (Hinv _ _ H)
      end.
  - step_cases Hev; moved t t'; simplify_eq; cbn in *;
      autorewrite with frame in *; cbn in *;
      try done; try (by eapply Hinv);
      match goal with
      | H : tasks _ !! _ = Some (Task ReadFixture _) |- _ =>
          by specialize (Hinv _ _ H)
      end.
Qed.

(** X9.  [readFixture] never touches the serialisation slot or a token,
    and the only thing it ever writes to the file is ['{}']: in every run
    from module load, a step of a direct [readFixture] call leaves the
    slot, the deferreds and every other call as they were, and leaves the
    file as it was or holding ['{}']. *)
Theorem readFixture_footprint (f : option contents) (evs : list event)
  (st st' : state) (t : nat) (p : pc) (ev : event) :
  exec evs (boot f) = Some st →
  tasks st !! t = Some (Task ReadFixture p) →
  ev = Resume t ∨ (∃ err, ev = IoDone t err) →
  step ev st = Some st' →
  updating st' = updating st ∧
  deferreds st' = deferreds st ∧
  clearingFixture st' = clearingFixture st ∧
  (file st' = file st ∨ file st' = Some empty_object_text) ∧
  (∀ t', t' ≠ t → tasks st' !! t' = tasks st !! t').
Proof.
  intros Hrun Ht Hkind Hev.
  assert (Hinv : reads_stay_in_readFixture st).
  { eapply (exec_invariant reads_stay_in_readFixture);
      [apply step_reads_stay_in_readFixture|done|].
    intros t' p' Ht'. cbn in Ht'. by rewrite lookup_nil in Ht'. }
  specialize (Hinv _ _ Ht).
  destruct Hkind as [->|[err ->]]; step_cases Hev;
    autorewrite with frame; cbn; autorewrite with frame;
    repeat split; auto;
    intros t' Ht'; by rewrite goto_lookup_ne.
Qed.

Lemma readFixture_footprint_witness :
  let evs := [ClearingDone None; Call (UpdateFixture doc_a1);
              Call ReadFixture; Resume 1; IoDone 1 (Some (SystemError "EIO"))] in
  ∃ st st',
    exec evs (boot None) = Some st ∧
    step (IoDone 1 None) st = Some st' ∧
    updating st' = updating st ∧
    deferreds st' = deferreds st ∧
    clearingFixture st' = clearingFixture st ∧
    (file st' = file st ∨ file st' = Some empty_object_text) ∧
    (∀ t', t' ≠ 1 → tasks st' !! t' = tasks st !! t').
Proof.
  intros evs. do 2 eexists. split; [reflexivity|]. split; [reflexivity|].
  apply (readFixture_footprint None evs _ _ 1 AwaitReset (IoDone 1 None));
    [reflexivity|reflexivity|right; by eexists|reflexivity].
Defined.

(** * [isConnectedToTheInternet] *)

Lemma net_exec_quiet b evs n calls st' :
  AwaitLookup ∉ calls →
  net_exec evs (Net (Some b) n calls) = Some st' →
  ∃ k, st' = Net (Some b) n (calls ++ replicate k (NetReturned b)).
Proof.
  revert calls. induction evs as [|ev evs IH]; intros calls Hquiet Hrun.
  - exists 0. cbn in *. rewrite app_nil_r. by simplify_eq.
  - destruct ev as [|t err]; cbn in Hrun.
    + apply IH in Hrun as [k ->].
      * exists (S k). by rewrite <-app_assoc.
      * rewrite not_elem_of_app, not_elem_of_cons. split; [done|].
        split; [done|apply not_elem_of_nil].
    + destruct (calls !! t) as [[|b']|] eqn:Ht; try done.
      destruct Hquiet. by eapply list_elem_of_lookup_2.
Qed.

(** X10.  The answer is cached, failures included: once [connected] holds
    an answer and no lookup is in flight, every later call returns that
    same answer at once and no further DNS lookup is ever made, whatever
    happens afterwards. *)
Theorem connectivity_answer_is_cached (st st' : net) (b : bool)
  (evs : list net_event) :
  connected st = Some b →
  AwaitLookup ∉ net_calls st →
  net_exec evs st = Some st' →
  connected st' = Some b ∧
  lookups st' = lookups st ∧
  ∃ k, net_calls st' = net_calls st ++ replicate k (NetReturned b).
Proof.
  destruct st as [c n calls]; cbn. intros -> Hquiet Hrun.
  apply net_exec_quiet in Hrun as [k ->]; [|done]. cbn. eauto.
Qed.

Lemma connectivity_answer_is_cached_witness :
  let st := Net (Some false) 1 [NetReturned false] in
  ∃ st',
    net_exec [NetCall; NetCall] st = Some st' ∧
    connected st' = Some false ∧
    lookups st' = lookups st ∧
    ∃ k, net_calls st' = net_calls st ++ replicate k (NetReturned false).
Proof.
  intros st. eexists. split; [reflexivity|].
  apply (connectivity_answer_is_cached st _ false [NetCall; NetCall]);
    [reflexivity| |reflexivity].
  cbn. rewrite not_elem_of_cons. split; [discriminate|apply not_elem_of_nil].
Defined.

Lemma net_exec_calls n k calls :
  net_exec (replicate n NetCall) (Net None k calls)
  = Some (Net None (n + k) (calls ++ replicate n AwaitLookup)).
Proof.
  revert k calls. induction n as [|n IH]; intros k calls; cbn.
  - by rewrite app_nil_r.
  - rewrite IH. rewrite <-app_assoc. cbn. do 3 f_equal. lia.
Qed.



(** * The [meta] of the login route *)

(** X12.  Whatever the matches are, the descriptors [meta] returns have
    exactly one title among them: the login title, which comes last.  A
    title contributed by the root route is dropped. *)
Theorem meta_has_exactly_one_title (matches : list route_match) :
  filter (λ descriptor, has_title descriptor = true) (meta matches)
    = [login_title] ∧
  last (meta matches) = Some login_title.
Proof.
  unfold meta. split; [|apply last_snoc].
  rewrite filter_app.
  rewrite (filter_cons_True _ login_title) by done. rewrite filter_nil.
  assert (Hnone : ∀ l : list (gmap string json),
            filter (λ d, has_title d = true)
                   (filter (λ d, negb (has_title d)) l) = []).
  { induction l as [|d l IH]; [done|].
    destruct (has_title d) eqn:Hd.
    - by rewrite (filter_cons_False (λ d, negb (has_title d)))
        by (rewrite Hd; cbn; tauto).
    - rewrite (filter_cons_True (λ d, negb (has_title d)))
        by (rewrite Hd; cbn; tauto).
      by rewrite filter_cons_False by congruence. }
  by rewrite Hnone.
Qed.
